(** * Theia service layer: [DefaultServiceProvider.getService]

    A shallow embedding of
    [packages/core/src/common/service-provider.ts] and the properties of the
    dispatch loop of [DefaultServiceProvider].

    The JavaScript values the loop can meet are given by the module [JS]:
    primitives, object references, error objects and promise handles,
    together with [ToBoolean] (the test of [if (service)]) and [typeof].
    A contribution is what the array [serviceContributions] holds at run
    time: a function, an ordinary object (the record variant, with its own
    properties and its prototype chain), an array or a primitive.
    Contributions run arbitrary code; their effects live in a type [World]
    the dispatcher knows nothing about, and [console.error] appends to a log
    of its own.  The last part puts the array the provider was constructed
    with into that world, where contributions can reach it, and reads it
    live as the loop does. *)

From Stdlib Require Import ZArith Floats.SpecFloat.
From stdpp Require Import base option list strings gmap.

Set Default Proof Using "Type".

(** ** JavaScript values *)

Module JS.

(** The primitive values of the language.  A number is an IEEE 754 double,
    given by its specification ([spec_float]): zeros, infinities, NaN and
    finite values. *)
Inductive primitive : Type :=
| Undefined
| Null
| Boolean (b : bool)
| Number (x : spec_float)
| BigInt (z : Z)
| String_ (s : string)
| Symbol (description : string).

(** Values a contribution can return or throw, and that [params] can hold.
    [Object] is a reference to an object (a [Proxyable] service instance,
    or any other object); [Error] is an [Error] instance with its [name]
    and [message]; [Promise] is a promise handle in its current state. *)
Inductive value : Type :=
| Prim (p : primitive)
| Object (address : nat)
| Error (name message : string)
| Promise (p : promise)
with promise : Type :=
| Pending
| Fulfilled (v : value)
| Rejected (reason : value).

Coercion Prim : primitive >-> value.

(** How a call or an expression completes: with a value, or by throwing
    one. *)
Inductive completion : Type :=
| Normal (v : value)
| Throw (thrown : value).

(** [typeof] on primitives; [typeof null] is ["object"]. *)
Definition typeof_primitive (p : primitive) : string :=
  match p with
  | Undefined => "undefined"
  | Null => "object"
  | Boolean _ => "boolean"
  | Number _ => "number"
  | BigInt _ => "bigint"
  | String_ _ => "string"
  | Symbol _ => "symbol"
  end.

(** [ToBoolean] on primitives: [undefined], [null], [false], [+0], [-0],
    [NaN], [0n] and the empty string are falsy. *)
Definition ToBoolean_primitive (p : primitive) : bool :=
  match p with
  | Undefined | Null => false
  | Boolean b => b
  | Number (S754_zero _) | Number S754_nan => false
  | Number _ => true
  | BigInt z => negb (Z.eqb z 0)
  | String_ s => negb (String.eqb s "")
  | Symbol _ => true
  end.

(** [ToBoolean]: every object is truthy, whatever it holds; so is a
    promise, whatever its state.  (The one falsy object of browsers,
    [document.all], is left out.) *)
Definition ToBoolean (v : value) : bool :=
  match v with
  | Prim p => ToBoolean_primitive p
  | Object _ | Error _ _ | Promise _ => true
  end.

(** [v === undefined || v === null], the test of the optional call
    [f?.(x)]. *)
Definition is_nullish (v : value) : bool :=
  match v with
  | Prim Undefined | Prim Null => true
  | _ => false
  end.

(** The [TypeError] the runtime throws.  The language fixes the class of
    the error and leaves the text to the engine; the text here says which
    operation failed. *)
Definition TypeError (message : string) : value := Error "TypeError" message.

(** The double-quote character (code 34), for template literals that
    contain it. *)
Definition dquote : string :=
  String (Ascii.Ascii false true false false false true false false) EmptyString.

End JS.

Import JS.

(** ** Contributions and the provider *)

Section ServiceProvider.

(** Everything a contribution can read or change when it runs. *)
Variable World : Type.

(** [ServiceContributionFunction]: [(serviceId, params) => any], run in a
    world. *)
Definition ServiceContributionFunction : Type :=
  string → value → World → completion * World.

(** What a property of an object holds: a function, called as
    [(params) => any], or a value that is not callable. *)
Inductive property : Type :=
| Method (m : value → World → completion * World)
| Data (v : value).

(** What the array [serviceContributions] can hold at run time.  The
    declared type is [ServiceContributionFunction | ServiceContributionRecord];
    the loop probes the shape itself, so the other shapes are here too.
    An ordinary object has its own properties and the own properties of
    each object of its prototype chain, nearest first (accessor
    properties and proxies are not modelled). *)
Inductive ServiceContribution : Type :=
| ContributionFunction (f : ServiceContributionFunction)
| ContributionRecord (own : gmap string property)
                     (prototypes : list (gmap string property))
| ContributionArray (elements : list value)
| ContributionPrimitive (p : primitive).

(** [class DefaultServiceProvider]: its one field, set by the
    constructor. *)
Record DefaultServiceProvider : Type := new_DefaultServiceProvider {
  serviceContributions : list ServiceContribution
}.

(** The machine state a call of [getService] runs in: the provider
    object, the world of the contributions, and what [console.error] has
    printed so far (oldest first). *)
Record state : Type := {
  this : DefaultServiceProvider;
  world : World;
  console : list value
}.

Definition set_world (w : World) (st : state) : state :=
  {| this := this st; world := w; console := console st |}.

(** [console.error(v)] *)
Definition console_error (v : value) (st : state) : state :=
  {| this := this st; world := world st; console := console st ++ [v] |}.

(** [typeof contribution] *)
Definition typeof (contribution : ServiceContribution) : string :=
  match contribution with
  | ContributionFunction _ => "function"
  | ContributionRecord _ _ | ContributionArray _ => "object"
  | ContributionPrimitive p => typeof_primitive p
  end.

(** [Array.isArray(contribution)] *)
Definition Array_isArray (contribution : ServiceContribution) : bool :=
  match contribution with
  | ContributionArray _ => true
  | _ => false
  end.

(** Property lookup [o[key]] on an ordinary object: the own property if
    there is one, else the first one found along the prototype chain. *)
Fixpoint lookup_chain (chain : list (gmap string property)) (key : string)
  : option property :=
  match chain with
  | [] => None
  | o :: chain' =>
      match o !! key with
      | Some p => Some p
      | None => lookup_chain chain' key
      end
  end.

Definition Get (own : gmap string property)
    (prototypes : list (gmap string property)) (key : string)
  : option property :=
  lookup_chain (own :: prototypes) key.

(** [contribution(serviceId, params)].  Calling what is not a function
    throws a [TypeError]. *)
Definition Call (contribution : ServiceContribution)
    (serviceId : string) (params : value) (w : World) : completion * World :=
  match contribution with
  | ContributionFunction f => f serviceId params w
  | _ => (Throw (TypeError "contribution is not a function"), w)
  end.

(** [contribution[serviceId]?.(params)], for a contribution whose
    [typeof] is ["object"] and that is not an array: an ordinary object or
    [null].  A property that is missing, [undefined] or [null] makes the
    optional call [undefined]; any other value that is not a function
    throws when called; reading a property of [null] throws. *)
Definition GetAndCall (contribution : ServiceContribution)
    (serviceId : string) (params : value) (w : World) : completion * World :=
  match contribution with
  | ContributionRecord own prototypes =>
      match Get own prototypes serviceId with
      | None => (Normal Undefined, w)
      | Some (Data v) =>
          if is_nullish v then (Normal Undefined, w)
          else (Throw (TypeError "contribution[serviceId] is not a function"), w)
      | Some (Method m) => m params w
      end
  | _ => (Throw (TypeError "cannot read properties of null"), w)
  end.

(** How the body of the [try] block ends. *)
Inductive signal : Type :=
| Fallthrough
| Continue
| Return (service : value)
| Raise (error : value).

(** [if (service) { return service as T; }], after the assignment to
    [service] completed as [r]. *)
Definition if_service (r : completion * World) (st : state) : signal * state :=
  match r with
  | (Normal service, w) =>
      if ToBoolean service then (Return service, set_world w st)
      else (Fallthrough, set_world w st)
  | (Throw error, w) => (Raise error, set_world w st)
  end.

(** The body of the [try] block, lines 110 to 121. *)
Definition try_block (contribution : ServiceContribution)
    (serviceId : string) (params : value) (st : state) : signal * state :=
  if String.eqb (typeof contribution) "function" then
    if_service (Call contribution serviceId params (world st)) st
  else if String.eqb (typeof contribution) "object"
          && negb (Array_isArray contribution) then
    if_service (GetAndCall contribution serviceId params (world st)) st
  else
    (Continue,
     console_error
       (String_ ("unexpected contribution type: " +:+ typeof contribution)) st).

(** One turn of the loop: [try { ... } catch (error) { console.error(error); }].
    [Some service] when the turn returns from [getService]. *)
Definition iteration (contribution : ServiceContribution)
    (serviceId : string) (params : value) (st : state) : option value * state :=
  match try_block contribution serviceId params st with
  | (Return service, st') => (Some service, st')
  | (Raise error, st') => (None, console_error error st')
  | (Fallthrough, st') | (Continue, st') => (None, st')
  end.

(** [for (const contribution of contributions) { ... }] *)
Fixpoint for_of (contributions : list ServiceContribution)
    (serviceId : string) (params : value) (st : state) : option value * state :=
  match contributions with
  | [] => (None, st)
  | contribution :: rest =>
      match iteration contribution serviceId params st with
      | (Some service, st') => (Some service, st')
      | (None, st') => for_of rest serviceId params st'
      end
  end.

(** [new Error(`no service found for "${serviceId}"`)] *)
Definition ServiceNotFound (serviceId : string) : value :=
  Error "Error" ("no service found for " +:+ dquote +:+ serviceId +:+ dquote).

(** [DefaultServiceProvider.getService] *)
Definition getService (serviceId : string) (params : value) (st : state)
  : completion * state :=
  match for_of (serviceContributions (this st)) serviceId params st with
  | (Some service, st') => (Normal service, st')
  | (None, st') => (Throw (ServiceNotFound serviceId), st')
  end.

(** ** The vocabulary of the properties *)

(** A contribution of the function variant. *)
Definition is_function (contribution : ServiceContribution) : bool :=
  match contribution with
  | ContributionFunction _ => true
  | _ => false
  end.

(** A contribution of the record variant: a plain mapping. *)
Definition is_mapping (contribution : ServiceContribution) : bool :=
  match contribution with
  | ContributionRecord _ _ => true
  | _ => false
  end.

(** A malformed registration: neither a function nor a plain mapping. *)
Definition malformed (contribution : ServiceContribution) : bool :=
  negb (is_function contribution) && negb (is_mapping contribution).

(** What a contribution produces for [(serviceId, params)] in world [w]:
    the function variant is called with both, the record variant answers
    through the callable it holds for [serviceId]; a malformed
    contribution produces nothing. *)
Definition produce (contribution : ServiceContribution)
    (serviceId : string) (params : value) (w : World)
  : option (completion * World) :=
  match contribution with
  | ContributionFunction f => Some (f serviceId params w)
  | ContributionRecord _ _ => Some (GetAndCall contribution serviceId params w)
  | _ => None
  end.

(** [none_produces serviceId params contributions w w']: consulted one
    after the other from world [w], every contribution of the list yields
    an empty result, throws, or is malformed; the world is [w'] at the
    end. *)
Inductive none_produces (serviceId : string) (params : value)
  : list ServiceContribution → World → World → Prop :=
| none_produces_nil w :
    none_produces serviceId params [] w w
| none_produces_empty contribution rest w v w1 w' :
    produce contribution serviceId params w = Some (Normal v, w1) →
    ToBoolean v = false →
    none_produces serviceId params rest w1 w' →
    none_produces serviceId params (contribution :: rest) w w'
| none_produces_throws contribution rest w error w1 w' :
    produce contribution serviceId params w = Some (Throw error, w1) →
    none_produces serviceId params rest w1 w' →
    none_produces serviceId params (contribution :: rest) w w'
| none_produces_malformed contribution rest w w' :
    malformed contribution = true →
    none_produces serviceId params rest w w' →
    none_produces serviceId params (contribution :: rest) w w'.

(** A pure contribution: what it produces does not depend on the world,
    and it leaves the world as it found it. *)
Definition pure_contribution (contribution : ServiceContribution) : Prop :=
  ∀ serviceId params w r w',
    produce contribution serviceId params w = Some (r, w') →
    w' = w ∧
    ∀ w0, produce contribution serviceId params w0 = Some (r, w0).

(** The member [toString] of [Object.prototype], called on an ordinary
    object without a [Symbol.toStringTag]. *)
Definition Object_prototype_toString : property :=
  Method (λ _ w, (Normal (String_ "[object Object]"), w)).

(** [Object.prototype], as far as it is needed here: of its members
    ([constructor], [hasOwnProperty], [valueOf], ...) only [toString] is
    given.  No statement below relies on a member being absent from it. *)
Definition Object_prototype : gmap string property :=
  {[ "toString" := Object_prototype_toString ]}.

(** An object literal [{ k1: v1, ... }]: its prototype is
    [Object.prototype]. *)
Definition object_literal (own : gmap string property) : ServiceContribution :=
  ContributionRecord own [Object_prototype].

End ServiceProvider.

Arguments Method {World} m.
Arguments Data {World} v.
Arguments ContributionFunction {World} f.
Arguments ContributionRecord {World} own prototypes.
Arguments ContributionArray {World} elements.
Arguments ContributionPrimitive {World} p.
Arguments new_DefaultServiceProvider {World} serviceContributions.
Arguments serviceContributions {World} d.
Arguments Build_state {World} this world console.
Arguments this {World} s.
Arguments world {World} s.
Arguments console {World} s.
Arguments set_world {World} w st.
Arguments console_error {World} v st.
Arguments typeof {World} contribution.
Arguments Array_isArray {World} contribution.
Arguments lookup_chain {World} chain key.
Arguments Get {World} own prototypes key.
Arguments Call {World} contribution serviceId params w.
Arguments GetAndCall {World} contribution serviceId params w.
Arguments if_service {World} r st.
Arguments try_block {World} contribution serviceId params st.
Arguments iteration {World} contribution serviceId params st.
Arguments for_of {World} contributions serviceId params st.
Arguments getService {World} serviceId params st.
Arguments is_function {World} contribution.
Arguments is_mapping {World} contribution.
Arguments malformed {World} contribution.
Arguments produce {World} contribution serviceId params w.
Arguments none_produces {World} serviceId params _ _ _.
Arguments pure_contribution {World} contribution.
Arguments Object_prototype_toString {World}.
Arguments Object_prototype {World}.
Arguments object_literal {World} own.

(** ** Service paths and the binding of the provider *)

(** [servicePath]: at run time a service path is the string it is made
    from. *)
Definition servicePath (path : string) : string := path.

Section Binding.

Variable World : Type.

(** What a contribution answers to a request in world [w]: the truthy
    value it returns, if it returns one. *)
Definition answers (contribution : ServiceContribution World)
    (serviceId : string) (params : value) (w : World) : option value :=
  match produce contribution serviceId params w with
  | Some (Normal v, _) => if ToBoolean v then Some v else None
  | _ => None
  end.

(** [contributionFilter.applyFilters(contributions, ServiceContribution)],
    the one method of [ContributionFilterRegistry] used here; its code is in
    another file, so it is any function: [None] when it returns [undefined]
    or [null], else the array it returns. *)
Definition applyFilters : Type :=
  list (ServiceContribution World) → option (list (ServiceContribution World)).

(** The factory [bindServiceProvider] binds, lines 45 to 49.
    [contributionFilter] is what [getOptional] found in the container
    ([None] when no registry is bound) and [contributions] is what
    [collectRecursive] gathered:
    [new DefaultServiceProvider(
       contributionFilter?.applyFilters(contributions, ServiceContribution)
       ?? contributions)]. *)
Definition bindServiceProvider_toDynamicValue
    (contributionFilter : option applyFilters)
    (contributions : list (ServiceContribution World))
  : DefaultServiceProvider World :=
  new_DefaultServiceProvider
    (match
       match contributionFilter with
       | Some registry => registry contributions
       | None => None
       end
     with
     | Some filtered => filtered
     | None => contributions
     end).

End Binding.

Arguments answers {World} contribution serviceId params w.
Arguments bindServiceProvider_toDynamicValue {World} contributionFilter contributions.

(** ** The array the provider is constructed with

    The constructor keeps the array it is given (lines 102 to 104) and the
    loop reads it through the array iterator, one index at a time
    (line 108): a contribution that holds the same array can change it
    while the loop runs.  Here the world of the contributions holds that
    array, as references to contribution objects, beside the rest of the
    world; the field [this] of the state is not read. *)

Section Live.

(** The world apart from the array. *)
Variable W : Type.

(** The world with the shared array in it. *)
Definition shared : Type := list nat * W.

(** The contribution object each reference denotes. *)
Variable objects : nat → ServiceContribution shared.

(** [this.serviceContributions], read now. *)
Definition serviceContributions_live (st : state shared)
  : list (ServiceContribution shared) :=
  map objects (fst (world st)).

(** [for (const contribution of this.serviceContributions) { ... }] on the
    live array: each step reads the length and the element at [index] as
    they are then.  A contribution that keeps adding to the array keeps the
    loop going; [None] when [fuel] steps were not enough. *)
Fixpoint for_of_live (fuel index : nat) (serviceId : string) (params : value)
    (st : state shared) : option (option value * state shared) :=
  match fuel with
  | 0 => None
  | S fuel' =>
      match fst (world st) !! index with
      | None => Some (None, st)
      | Some reference =>
          match iteration (objects reference) serviceId params st with
          | (Some service, st') => Some (Some service, st')
          | (None, st') => for_of_live fuel' (S index) serviceId params st'
          end
      end
  end.

(** [getService] on the live array. *)
Definition getService_live (fuel : nat) (serviceId : string) (params : value)
    (st : state shared) : option (completion * state shared) :=
  match for_of_live fuel 0 serviceId params st with
  | Some (Some service, st') => Some (Normal service, st')
  | Some (None, st') => Some (Throw (ServiceNotFound serviceId), st')
  | None => None
  end.

(** A contribution that does not change the array, whatever it is asked
    and whatever else it does. *)
Definition keeps_array (contribution : ServiceContribution shared) : Prop :=
  ∀ serviceId params (sw sw' : shared) r,
    produce contribution serviceId params sw = Some (r, sw') →
    fst sw' = fst sw.

End Live.

Arguments serviceContributions_live {W} objects st.
Arguments for_of_live {W} objects fuel index serviceId params st.
Arguments getService_live {W} objects fuel serviceId params st.
Arguments keeps_array {W} contribution.

(** ** Fixtures: contributions that count their calls

    The world is the number of calls made to contributions so far, so that
    a contribution that is consulted leaves a trace. *)

(** [() => v], counting the call. *)
Definition returning (v : value) : ServiceContributionFunction nat :=
  λ _ _ calls, (Normal v, S calls).

(** [() => { throw e; }], counting the call. *)
Definition throwing (e : value) : ServiceContributionFunction nat :=
  λ _ _ calls, (Throw e, S calls).

(** A method [() => v] of a record, counting the call. *)
Definition method_returning (v : value) : property nat :=
  Method (λ _ calls, (Normal v, S calls)).

(** The state before the first call, for a provider built by
    [new DefaultServiceProvider(contributions)]. *)
Definition fresh (contributions : list (ServiceContribution nat)) : state nat :=
  {| this := new_DefaultServiceProvider contributions; world := 0; console := [] |}.

(** [() => v], a pure function: no call is counted. *)
Definition constant (v : value) : ServiceContributionFunction nat :=
  λ _ _ calls, (Normal v, calls).

(** The registration [{ '/services/foo': () => foo }], an object literal. *)
Definition foo_services : gmap string (property nat) :=
  {[ "/services/foo" := method_returning (Object 1) ]}.

(** Contribution objects around a shared array: object [0] is
    [() => { array.push(late); }], where [late], object [1], is
    [() => service]. *)
Definition pushing_objects (reference : nat) : ServiceContribution (shared unit) :=
  match reference with
  | 0 => ContributionFunction
           (λ _ _ '(array, w), (Normal Undefined, (array ++ [1], w)))
  | 1 => ContributionFunction (λ _ _ sw, (Normal (Object 7), sw))
  | _ => ContributionPrimitive Undefined
  end.

(** The provider constructed with the array [[pushing]]. *)
Definition pushing_start : state (shared unit) :=
  {| this := new_DefaultServiceProvider (map pushing_objects [0]);
     world := ([0], tt);
     console := [] |}.

(** Contribution objects that leave the array alone: [null] and
    [() => service]. *)
Definition steady_objects (reference : nat) : ServiceContribution (shared unit) :=
  match reference with
  | 0 => ContributionPrimitive Null
  | _ => ContributionFunction (λ _ _ sw, (Normal (Object 7), sw))
  end.

Definition steady_start : state (shared unit) :=
  {| this := new_DefaultServiceProvider (map steady_objects [0; 1]);
     world := ([0; 1], tt);
     console := [] |}.

(** ** The loop *)

Section Loop.

Context {World : Type}.
Implicit Types (contribution c : ServiceContribution World).
Implicit Types (contributions rest pre post : list (ServiceContribution World)).
Implicit Types (st : state World) (w : World) (v e : value).
Implicit Types (serviceId : string) (params : value).
Implicit Types (own : gmap string (property World)).
Implicit Types (prototypes : list (gmap string (property World))).

(** The guards of the two branches: only a function passes the first; only
    an ordinary object or [null] passes the second. *)
Lemma function_branch_shape c :
  String.eqb (typeof c) "function" = true → is_function c = true.
Proof. by destruct c as [f|own prototypes|elements|[]]. Qed.

Lemma record_branch_shape c :
  String.eqb (typeof c) "object" && negb (Array_isArray c) = true →
  is_mapping c = true ∨ c = ContributionPrimitive Null.
Proof. destruct c as [f|own prototypes|elements|[]]; simpl; auto; discriminate. Qed.

Lemma try_block_function f serviceId params st :
  try_block (ContributionFunction f) serviceId params st
  = if_service (f serviceId params (world st)) st.
Proof. reflexivity. Qed.

Lemma try_block_record own prototypes serviceId params st :
  try_block (ContributionRecord own prototypes) serviceId params st
  = if_service
      (GetAndCall (ContributionRecord own prototypes) serviceId params (world st)) st.
Proof. reflexivity. Qed.

(** A well-formed contribution: the turn of the loop is decided by what the
    contribution produces, and by its truthiness alone when it returns. *)
Lemma iteration_produce c serviceId params st r w' :
  produce c serviceId params (world st) = Some (r, w') →
  iteration c serviceId params st
  = match r with
    | Normal v =>
        if ToBoolean v then (Some v, set_world w' st) else (None, set_world w' st)
    | Throw e => (None, console_error e (set_world w' st))
    end.
Proof.
  destruct c as [f|own prototypes|elements|p]; cbn [produce]; intros Hp;
    try discriminate.
  - injection Hp as Hp. unfold iteration. rewrite try_block_function, Hp.
    destruct r as [v|e]; simpl; [by destruct (ToBoolean v)|done].
  - assert (GetAndCall (ContributionRecord own prototypes) serviceId params (world st)
            = (r, w')) as Hq by congruence.
    unfold iteration. rewrite try_block_record, Hq.
    destruct r as [v|e]; simpl; [by destruct (ToBoolean v)|done].
Qed.

(** A malformed contribution: one line on the console, nothing else. *)
Lemma iteration_malformed c serviceId params st :
  malformed c = true →
  ∃ entry, iteration c serviceId params st = (None, console_error entry st).
Proof.
  destruct c as [f|own prototypes|elements|p]; simpl; try discriminate; intros _.
  - eexists. reflexivity.
  - destruct p; eexists; reflexivity.
Qed.

Lemma malformed_or_produces c serviceId params w :
  malformed c = true ∨ ∃ r w', produce c serviceId params w = Some (r, w').
Proof.
  destruct c as [f|own prototypes|elements|p]; simpl; eauto.
  - right. destruct (f serviceId params w) as [r w']. eauto.
  - right.
    destruct (GetAndCall (ContributionRecord own prototypes) serviceId params w)
      as [r w'] eqn:E.
    exists r, w'. exact (f_equal Some E).
Qed.

Lemma for_of_app pre post serviceId params st :
  for_of (pre ++ post) serviceId params st
  = match for_of pre serviceId params st with
    | (Some v, st') => (Some v, st')
    | (None, st') => for_of post serviceId params st'
    end.
Proof.
  revert st. induction pre as [|c pre IH]; intros st; simpl; [done|].
  destruct (iteration c serviceId params st) as [[v|] st1]; [done|apply IH].
Qed.

(** No turn of the loop writes to the provider. *)
Lemma iteration_this c serviceId params st :
  this (snd (iteration c serviceId params st)) = this st.
Proof.
  destruct (malformed_or_produces c serviceId params (world st))
    as [Hm|(r & w' & Hp)].
  - destruct (iteration_malformed c serviceId params st Hm) as [entry ->]. done.
  - rewrite (iteration_produce _ _ _ _ _ _ Hp).
    destruct r as [v|e]; [by destruct (ToBoolean v)|done].
Qed.

Lemma for_of_this contributions serviceId params st :
  this (snd (for_of contributions serviceId params st)) = this st.
Proof.
  revert st. induction contributions as [|c rest IH]; intros st; simpl; [done|].
  pose proof (iteration_this c serviceId params st) as Hc.
  destruct (iteration c serviceId params st) as [[v|] st1]; simpl in *; [done|].
  by rewrite IH.
Qed.

(** The loop runs off the end of the list exactly when no contribution
    produces a service. *)
Lemma for_of_none_produces contributions serviceId params st st' :
  for_of contributions serviceId params st = (None, st') →
  none_produces serviceId params contributions (world st) (world st').
Proof.
  revert st. induction contributions as [|c rest IH]; intros st; simpl.
  - intros [= ->]. constructor.
  - destruct (malformed_or_produces c serviceId params (world st))
      as [Hm|(r & w1 & Hp)].
    + destruct (iteration_malformed c serviceId params st Hm) as [entry ->].
      intros H. apply none_produces_malformed; [done|]. exact (IH _ H).
    + rewrite (iteration_produce _ _ _ _ _ _ Hp).
      destruct r as [v|e].
      * destruct (ToBoolean v) eqn:Hv; [discriminate|].
        intros H. eapply none_produces_empty; [done..|]. exact (IH _ H).
      * intros H. eapply none_produces_throws; [done|]. exact (IH _ H).
Qed.

Lemma none_produces_for_of contributions serviceId params w w' :
  none_produces serviceId params contributions w w' →
  ∀ st, world st = w →
    ∃ st', for_of contributions serviceId params st = (None, st')
           ∧ world st' = w' ∧ this st' = this st.
Proof.
  induction 1 as [w|c rest w v w1 w' Hp Hv _ IH|c rest w e w1 w' Hp _ IH
                  |c rest w w' Hm _ IH]; intros st Hw; simpl.
  - eauto.
  - subst w. rewrite (iteration_produce _ _ _ _ _ _ Hp), Hv.
    destruct (IH (set_world w1 st) eq_refl) as (st' & ? & ? & ?). eauto.
  - subst w. rewrite (iteration_produce _ _ _ _ _ _ Hp).
    destruct (IH (console_error e (set_world w1 st)) eq_refl)
      as (st' & ? & ? & ?). eauto.
  - destruct (iteration_malformed c serviceId params st Hm) as [entry ->].
    destruct (IH (console_error entry st) Hw) as (st' & ? & ? & ?). eauto.
Qed.

(** The console is written and never read: what a turn returns, and the
    world it leaves, depend on the world alone. *)
Lemma iteration_world c serviceId params st st' :
  world st = world st' →
  fst (iteration c serviceId params st) = fst (iteration c serviceId params st')
  ∧ world (snd (iteration c serviceId params st))
    = world (snd (iteration c serviceId params st')).
Proof.
  intros Hw.
  destruct (malformed_or_produces c serviceId params (world st))
    as [Hm|(r & w1 & Hp)].
  - destruct (iteration_malformed c serviceId params st Hm) as [entry ->].
    destruct (iteration_malformed c serviceId params st' Hm) as [entry' ->].
    done.
  - rewrite (iteration_produce _ _ _ _ _ _ Hp).
    rewrite Hw in Hp. rewrite (iteration_produce _ _ _ _ _ _ Hp).
    destruct r as [v|e]; [by destruct (ToBoolean v)|done].
Qed.

Lemma for_of_world contributions serviceId params st st' :
  world st = world st' →
  fst (for_of contributions serviceId params st)
  = fst (for_of contributions serviceId params st')
  ∧ world (snd (for_of contributions serviceId params st))
    = world (snd (for_of contributions serviceId params st')).
Proof.
  revert st st'. induction contributions as [|c rest IH]; intros st st' Hw; simpl.
  - done.
  - destruct (iteration_world c serviceId params st st' Hw) as [Hr Hw1].
    destruct (iteration c serviceId params st) as [[v|] st1],
             (iteration c serviceId params st') as [[v'|] st1'];
      simpl in *; try discriminate; [done|].
    by apply IH.
Qed.

(** What the caller of [getService] sees is decided by the list and the
    world. *)
Lemma getService_world serviceId params st st' :
  serviceContributions (this st) = serviceContributions (this st') →
  world st = world st' →
  fst (getService serviceId params st) = fst (getService serviceId params st')
  ∧ world (snd (getService serviceId params st))
    = world (snd (getService serviceId params st')).
Proof.
  intros Hl Hw. unfold getService. rewrite Hl.
  destruct (for_of_world (serviceContributions (this st')) serviceId params
              st st' Hw) as [Hr Hw'].
  destruct (for_of _ _ _ st) as [[v|] st1], (for_of _ _ _ st') as [[v'|] st1'];
    simpl in *; try discriminate; [|done].
  by injection Hr as ->.
Qed.

(** The walk of [pre ++ post], once [pre] is exhausted, shows the caller
    what a provider holding [post] alone shows from the same world. *)
Lemma getService_after_prefix pre post serviceId params st st1 st_post :
  serviceContributions (this st) = pre ++ post →
  for_of pre serviceId params st = (None, st1) →
  serviceContributions (this st_post) = post →
  world st_post = world st1 →
  fst (getService serviceId params st) = fst (getService serviceId params st_post)
  ∧ world (snd (getService serviceId params st))
    = world (snd (getService serviceId params st_post)).
Proof.
  intros Hl Hwalk Hpost Hw. unfold getService.
  rewrite Hl, for_of_app, Hwalk, Hpost.
  destruct (for_of_world post serviceId params st1 st_post (eq_sym Hw))
    as [Hr Hw'].
  destruct (for_of post _ _ st1) as [[v|] st2],
           (for_of post _ _ st_post) as [[v'|] st2'];
    simpl in *; try discriminate; [|done].
  by injection Hr as ->.
Qed.

(** A turn that returns a service returns a truthy one. *)
Lemma iteration_Some_truthy c serviceId params st v st' :
  iteration c serviceId params st = (Some v, st') → ToBoolean v = true.
Proof.
  destruct (malformed_or_produces c serviceId params (world st))
    as [Hm|(r & w1 & Hp)].
  - destruct (iteration_malformed c serviceId params st Hm) as [entry ->].
    discriminate.
  - rewrite (iteration_produce _ _ _ _ _ _ Hp).
    destruct r as [v'|e]; [|discriminate].
    destruct (ToBoolean v') eqn:Hv; [|discriminate]. by intros [= <- _].
Qed.

Lemma for_of_Some_truthy contributions serviceId params st v st' :
  for_of contributions serviceId params st = (Some v, st') → ToBoolean v = true.
Proof.
  revert st. induction contributions as [|c rest IH]; intros st; simpl.
  - discriminate.
  - destruct (iteration c serviceId params st) as [[v1|] st1] eqn:Hit.
    + intros [= <- _]. by eapply iteration_Some_truthy.
    + apply IH.
Qed.

(** Pure contributions: the world stays, and the answer is the same from
    any state. *)
Lemma iteration_pure c serviceId params st st' :
  pure_contribution c →
  world (snd (iteration c serviceId params st)) = world st
  ∧ fst (iteration c serviceId params st) = fst (iteration c serviceId params st').
Proof.
  intros Hpure.
  destruct (malformed_or_produces c serviceId params (world st))
    as [Hm|(r & w1 & Hp)].
  - destruct (iteration_malformed c serviceId params st Hm) as [entry ->].
    destruct (iteration_malformed c serviceId params st' Hm) as [entry' ->].
    done.
  - destruct (Hpure _ _ _ _ _ Hp) as [-> Hany].
    rewrite (iteration_produce _ _ _ _ _ _ Hp).
    rewrite (iteration_produce _ _ _ _ _ _ (Hany (world st'))).
    destruct r as [v|e]; [by destruct (ToBoolean v)|done].
Qed.

Lemma for_of_pure contributions serviceId params st st' :
  Forall pure_contribution contributions →
  world (snd (for_of contributions serviceId params st)) = world st
  ∧ fst (for_of contributions serviceId params st)
    = fst (for_of contributions serviceId params st').
Proof.
  intros Hall. revert st st'.
  induction Hall as [|c rest Hc _ IH]; intros st st'; simpl; [done|].
  destruct (iteration_pure c serviceId params st st' Hc) as [Hw Hr].
  destruct (iteration c serviceId params st) as [[v|] st1],
           (iteration c serviceId params st') as [[v'|] st1'];
    simpl in *; try discriminate; [done|].
  destruct (IH st1 st1') as [Hw' Hr']. by rewrite Hw', Hw.
Qed.

(** The console entry of a malformed contribution depends on the
    contribution alone. *)
Lemma iteration_malformed_entry c :
  malformed c = true →
  ∃ entry, ∀ serviceId params st,
    iteration c serviceId params st = (None, console_error entry st).
Proof.
  destruct c as [f|own prototypes|elements|p]; simpl; try discriminate; intros _.
  - eexists. intros serviceId params st. reflexivity.
  - destruct p; eexists; intros serviceId params st; reflexivity.
Qed.

(** A walk only adds to the console. *)
Lemma iteration_console c serviceId params st :
  ∃ later, console (snd (iteration c serviceId params st)) = console st ++ later.
Proof.
  destruct (malformed_or_produces c serviceId params (world st))
    as [Hm|(r & w1 & Hp)].
  - destruct (iteration_malformed c serviceId params st Hm) as [entry ->].
    by exists [entry].
  - rewrite (iteration_produce _ _ _ _ _ _ Hp).
    destruct r as [v|e]; [|by exists [e]].
    exists []. rewrite app_nil_r. by destruct (ToBoolean v).
Qed.

Lemma for_of_console contributions serviceId params st :
  ∃ later,
    console (snd (for_of contributions serviceId params st)) = console st ++ later.
Proof.
  revert st. induction contributions as [|c rest IH]; intros st; simpl.
  - exists []. by rewrite app_nil_r.
  - destruct (iteration_console c serviceId params st) as [l1 H1].
    destruct (iteration c serviceId params st) as [[v|] st1]; simpl in H1.
    + by exists l1.
    + destruct (IH st1) as [l2 H2]. exists (l1 ++ l2).
      by rewrite H2, H1, app_assoc.
Qed.

(** A turn that prints [entry] and goes on, in a call of [getService]: the
    line is on the console after the call, right after what the earlier
    turns left there. *)
Lemma getService_console_after_turn pre c post serviceId params st st1 entry :
  serviceContributions (this st) = pre ++ c :: post →
  for_of pre serviceId params st = (None, st1) →
  iteration c serviceId params st1 = (None, console_error entry st1) →
  ∃ later,
    console (snd (getService serviceId params st)) = console st1 ++ entry :: later.
Proof.
  intros Hl Hwalk Hit. unfold getService.
  rewrite Hl, for_of_app, Hwalk. cbn [for_of]. rewrite Hit.
  destruct (for_of_console post serviceId params (console_error entry st1))
    as [later Hlater].
  exists later.
  destruct (for_of post serviceId params (console_error entry st1))
    as [[v|] st2]; simpl in *; by rewrite Hlater, <- app_assoc.
Qed.

End Loop.

(** ** Properties of [getService] *)

Section Properties.

Context {World : Type}.
Implicit Types (contribution c : ServiceContribution World).
Implicit Types (contributions rest pre post : list (ServiceContribution World)).
Implicit Types (st : state World) (w : World) (v e : value).
Implicit Types (serviceId : string) (params : value).
Implicit Types (own : gmap string (property World)).
Implicit Types (prototypes : list (gmap string (property World))).



(** C3. When the contributions before [c] produce no service and [c]
    throws [e]: [e] goes to the console and the walk goes on with the
    contributions after [c]; the caller sees what a provider holding only
    those later contributions shows, and what it would see had [c] returned
    an empty value [v'] instead of throwing. *)
Theorem throwing_contribution_skipped pre c post serviceId params st w1 e w2 :
  serviceContributions (this st) = pre ++ c :: post →
  none_produces serviceId params pre (world st) w1 →
  produce c serviceId params w1 = Some (Throw e, w2) →
  (∃ st2, for_of (pre ++ [c]) serviceId params st = (None, st2)
          ∧ world st2 = w2
          ∧ last (console st2) = Some e
          ∧ for_of (pre ++ c :: post) serviceId params st
            = for_of post serviceId params st2)
  ∧ (∀ st_post,
       serviceContributions (this st_post) = post →
       world st_post = w2 →
       fst (getService serviceId params st)
       = fst (getService serviceId params st_post)
       ∧ world (snd (getService serviceId params st))
         = world (snd (getService serviceId params st_post)))
  ∧ (∀ c' v' st',
       produce c' serviceId params w1 = Some (Normal v', w2) →
       ToBoolean v' = false →
       serviceContributions (this st') = pre ++ c' :: post →
       world st' = world st →
       fst (getService serviceId params st)
       = fst (getService serviceId params st')
       ∧ world (snd (getService serviceId params st))
         = world (snd (getService serviceId params st'))).
Proof.
  intros Hl Hpre Hc.
  destruct (none_produces_for_of _ _ _ _ _ Hpre st eq_refl)
    as (st1 & Hwalk & Hw1 & _).
  subst w1. pose proof (iteration_produce _ _ _ _ _ _ Hc) as Hit.
  cbv beta iota in Hit.
  assert (for_of (pre ++ [c]) serviceId params st
          = (None, console_error e (set_world w2 st1))) as Hskip.
  { rewrite for_of_app, Hwalk. simpl. by rewrite Hit. }
  assert (∀ st_post,
            serviceContributions (this st_post) = post →
            world st_post = w2 →
            fst (getService serviceId params st)
            = fst (getService serviceId params st_post)
            ∧ world (snd (getService serviceId params st))
              = world (snd (getService serviceId params st_post))) as Hpost.
  { intros st_post Hp Hw.
    eapply (getService_after_prefix (pre ++ [c]) post); [|exact Hskip|done..].
    by rewrite <- app_assoc. }
  split; [|split; [exact Hpost|]].
  - exists (console_error e (set_world w2 st1)). split; [exact Hskip|].
    split; [done|]. split; [apply last_snoc|].
    rewrite for_of_app, Hwalk. simpl. by rewrite Hit.
  - intros c' v' st' Hc' Hv' Hl' Hw'.
    destruct (none_produces_for_of _ _ _ _ _ Hpre st' Hw')
      as (st1' & Hwalk' & Hw1' & _).
    rewrite <- Hw1' in Hc'.
    pose proof (iteration_produce _ _ _ _ _ _ Hc') as Hit'.
    cbv beta iota in Hit'. rewrite Hv' in Hit'.
    set (st_post := {| this := new_DefaultServiceProvider post;
                       world := w2; console := [] |}).
    destruct (Hpost st_post eq_refl eq_refl) as [-> ->].
    assert (for_of (pre ++ [c']) serviceId params st'
            = (None, set_world w2 st1')) as Hskip'.
    { rewrite for_of_app, Hwalk'. simpl. by rewrite Hit'. }
    assert (serviceContributions (this st') = (pre ++ [c']) ++ post) as Hl''.
    { by rewrite <- app_assoc. }
    destruct (getService_after_prefix _ _ serviceId params st' _ st_post
                Hl'' Hskip' eq_refl eq_refl) as [-> ->].
    done.
Qed.

(** Record lookup: an own property answers; other keys play no part; a key
    found nowhere along the chain is an empty result. *)
Lemma record_own_key own prototypes serviceId params w m :
  own !! serviceId = Some (Method m) →
  produce (ContributionRecord own prototypes) serviceId params w
  = Some (m params w).
Proof.
  intros Hk. cbn [produce GetAndCall]. unfold Get. cbn [lookup_chain].
  by rewrite Hk.
Qed.

Lemma record_other_key own prototypes key p serviceId params w :
  key ≠ serviceId →
  produce (ContributionRecord (<[key:=p]> own) prototypes) serviceId params w
  = produce (ContributionRecord own prototypes) serviceId params w.
Proof.
  intros Hne. cbn [produce GetAndCall]. unfold Get. cbn [lookup_chain].
  by rewrite lookup_insert_ne.
Qed.

Lemma record_key_not_found own prototypes serviceId params w :
  Get own prototypes serviceId = None →
  produce (ContributionRecord own prototypes) serviceId params w
  = Some (Normal Undefined, w).
Proof. intros Hk. cbn [produce GetAndCall]. by rewrite Hk. Qed.

Lemma record_inherited_key own prototypes serviceId :
  own !! serviceId = None →
  Get own prototypes serviceId = lookup_chain prototypes serviceId.
Proof. intros Hk. unfold Get. cbn [lookup_chain]. by rewrite Hk. Qed.

(** C5. When [A] and [B] both produce a truthy value for the request, the
    provider built on [[A; B]] returns the value of [A] and the provider
    built on [[B; A]] returns the value of [B]; in both the second
    contribution is not consulted. *)
Theorem registration_order_decides (A B : ServiceContribution World)
    serviceId params w (log : list value) va wa vb wb :
  produce A serviceId params w = Some (Normal va, wa) →
  ToBoolean va = true →
  produce B serviceId params w = Some (Normal vb, wb) →
  ToBoolean vb = true →
  getService serviceId params
    {| this := new_DefaultServiceProvider [A; B]; world := w; console := log |}
  = (Normal va,
     {| this := new_DefaultServiceProvider [A; B]; world := wa; console := log |})
  ∧ getService serviceId params
      {| this := new_DefaultServiceProvider [B; A]; world := w; console := log |}
    = (Normal vb,
       {| this := new_DefaultServiceProvider [B; A]; world := wb; console := log |}).
Proof.
  intros HA Hva HB Hvb. unfold getService. cbn [this serviceContributions for_of].
  split.
  - rewrite (iteration_produce A serviceId params (Build_state _ w log) _ _ HA).
    by rewrite Hva.
  - rewrite (iteration_produce B serviceId params (Build_state _ w log) _ _ HB).
    by rewrite Hvb.
Qed.

(** C6. A contribution that is neither a function nor a plain mapping puts
    one entry on the console, after what is there, changes nothing else,
    and the walk goes on with the next contribution; in a call of
    [getService] that reaches it the entry is on the console after the
    call; with or without it in the list the caller sees the same
    outcome. *)
Theorem malformed_contribution_skipped c serviceId params :
  malformed c = true →
  ∃ entry,
    (∀ st rest,
        iteration c serviceId params st = (None, console_error entry st)
        ∧ console (snd (iteration c serviceId params st)) = console st ++ [entry]
        ∧ world (snd (iteration c serviceId params st)) = world st
        ∧ for_of (c :: rest) serviceId params st
          = for_of rest serviceId params (console_error entry st))
    ∧ (∀ pre post st st1,
         serviceContributions (this st) = pre ++ c :: post →
         for_of pre serviceId params st = (None, st1) →
         ∃ later,
           console (snd (getService serviceId params st))
           = console st1 ++ entry :: later)
    ∧ (∀ pre post st st',
         serviceContributions (this st) = pre ++ c :: post →
         serviceContributions (this st') = pre ++ post →
         world st = world st' →
         fst (getService serviceId params st)
         = fst (getService serviceId params st')
         ∧ world (snd (getService serviceId params st))
           = world (snd (getService serviceId params st'))).
Proof.
  intros Hm. destruct (iteration_malformed_entry c Hm) as [entry Hentry].
  exists entry.
  assert (∀ st rest,
            for_of (c :: rest) serviceId params st
            = for_of rest serviceId params (console_error entry st)) as Hskip.
  { intros st rest. simpl. by rewrite Hentry. }
  split; [|split].
  - intros st rest. rewrite Hentry. by split; [|split; [|split]].
  - intros pre post st st1 Hl Hwalk.
    by eapply getService_console_after_turn.
  - intros pre post st st' Hl Hl' Hw. unfold getService.
    rewrite Hl, Hl', !for_of_app.
    destruct (for_of_world pre serviceId params st st' Hw) as [Hr Hw1].
    destruct (for_of pre _ _ st) as [[v|] st1],
             (for_of pre _ _ st') as [[v'|] st1'];
      simpl in Hr, Hw1; try discriminate.
    + by injection Hr as ->.
    + rewrite Hskip.
      destruct (for_of_world post serviceId params
                  (console_error entry st1) st1' Hw1) as [Hr2 Hw2].
      destruct (for_of post _ _ (console_error entry st1)) as [[v|] st2],
               (for_of post _ _ st1') as [[v'|] st2'];
        simpl in *; try discriminate; [|done].
      by injection Hr2 as ->.
Qed.


(** C9. [getService] never hands an empty value to its caller: it returns a
    truthy value, hence not [undefined], or it throws, and then the error
    is [no service found]. *)
Theorem getService_never_returns_empty serviceId params st :
  match fst (getService serviceId params st) with
  | Normal v => ToBoolean v = true ∧ v ≠ Prim Undefined
  | Throw e => e = ServiceNotFound serviceId
  end.
Proof.
  unfold getService.
  destruct (for_of (serviceContributions (this st)) serviceId params st)
    as [[v|] st'] eqn:Hwalk; simpl; [|done].
  pose proof (for_of_Some_truthy _ _ _ _ _ _ Hwalk) as Hv.
  split; [done|]. intros ->. discriminate.
Qed.

(** C10. An array has [typeof] ["object"], yet it takes the defensive
    branch and not the record branch: whatever it holds and whatever is
    asked, nothing is looked up or called, the line [unexpected
    contribution type: object] is added to the console, and the walk goes
    on with the next contribution; in a call of [getService] that reaches
    the array the line is on the console after the call. *)
Theorem array_contribution_is_malformed (elements : list value)
    rest serviceId params st :
  typeof (World := World) (ContributionArray elements) = "object"
  ∧ try_block (ContributionArray elements) serviceId params st
    = (Continue,
       console_error (String_ "unexpected contribution type: object") st)
  ∧ for_of (ContributionArray elements :: rest) serviceId params st
    = for_of rest serviceId params
        (console_error (String_ "unexpected contribution type: object") st)
  ∧ console (snd (try_block (ContributionArray elements) serviceId params st))
    = console st ++ [Prim (String_ "unexpected contribution type: object")]
  ∧ world (snd (try_block (ContributionArray elements) serviceId params st))
    = world st
  ∧ (∀ pre post st0 st1,
       serviceContributions (this st0)
       = pre ++ ContributionArray elements :: post →
       for_of pre serviceId params st0 = (None, st1) →
       ∃ later,
         console (snd (getService serviceId params st0))
         = console st1
           ++ Prim (String_ "unexpected contribution type: object") :: later).
Proof.
  do 5 (split; [reflexivity|]).
  intros pre post st0 st1 Hl Hwalk.
  by eapply getService_console_after_turn.
Qed.

End Properties.

(** ** The properties at work *)



(** A contribution that throws, before one that answers. *)
Lemma throwing_contribution_skipped_witness :
  let c := ContributionFunction (throwing (Error "Error" "broken")) in
  let post := [ContributionFunction (returning (Object 7))] in
  let st := fresh ([] ++ c :: post) in
  serviceContributions (this st) = [] ++ c :: post
  ∧ none_produces "x" Undefined [] (world st) 0
  ∧ produce c "x" Undefined 0 = Some (Throw (Error "Error" "broken"), 1)
  ∧ fst (getService "x" Undefined st) = Normal (Object 7)
  ∧ world (snd (getService "x" Undefined st)) = 2.
Proof.
  intros c post st.
  assert (none_produces "x" Undefined [] (world st) 0) as Hpre by constructor.
  do 3 (split; [first [exact Hpre | reflexivity]|]).
  exact (proj1 (proj2 (throwing_contribution_skipped [] c post "x" Undefined st 0
                         (Error "Error" "broken") 1 eq_refl Hpre eq_refl))
           {| this := new_DefaultServiceProvider post; world := 1; console := [] |}
           eq_refl eq_refl).
Defined.

(** C4. The record [{ '/services/foo': () => foo }] asked for [toString]:
    the key is not one of its own, yet the lookup finds the member inherited
    from [Object.prototype], calls it, and the provider answers with the
    string [[object Object]] instead of failing; nothing is printed.  The
    same record without a prototype does not answer. *)
Theorem record_answers_inherited_toString :
  foo_services !! "toString" = None
  ∧ getService "toString" Undefined (fresh [object_literal foo_services])
    = (Normal (String_ "[object Object]"), fresh [object_literal foo_services])
  ∧ getService "toString" Undefined (fresh [ContributionRecord foo_services []])
    = (Throw (ServiceNotFound "toString"),
       fresh [ContributionRecord foo_services []]).
Proof. repeat split. Qed.

Lemma registration_order_decides_witness :
  let A := ContributionFunction (returning (String_ "a")) in
  let B := object_literal {[ "x" := method_returning (String_ "b") ]} in
  produce A "x" Undefined 0 = Some (Normal (String_ "a"), 1)
  ∧ ToBoolean (String_ "a") = true
  ∧ produce B "x" Undefined 0 = Some (Normal (String_ "b"), 1)
  ∧ ToBoolean (String_ "b") = true
  ∧ getService "x" Undefined (fresh [A; B])
    = (Normal (String_ "a"), set_world 1 (fresh [A; B]))
  ∧ getService "x" Undefined (fresh [B; A])
    = (Normal (String_ "b"), set_world 1 (fresh [B; A])).
Proof.
  intros A B. do 4 (split; [reflexivity|]).
  exact (registration_order_decides A B "x" Undefined 0 []
           (String_ "a") 1 (String_ "b") 1 eq_refl eq_refl eq_refl eq_refl).
Defined.

(** [null] in the list: its [typeof] is ["object"], the property read
    throws, the error is printed, and the next contribution answers. *)
Lemma malformed_contribution_skipped_witness :
  let c : ServiceContribution nat := ContributionPrimitive Null in
  let post := [ContributionFunction (returning (Object 7))] in
  malformed c = true
  ∧ ∃ entry,
      console (snd (iteration c "x" Undefined (fresh ([] ++ c :: post))))
      = [entry]
      ∧ fst (getService "x" Undefined (fresh ([] ++ c :: post)))
        = Normal (Object 7)
      ∧ world (snd (getService "x" Undefined (fresh ([] ++ c :: post)))) = 1.
Proof.
  intros c post. split; [reflexivity|].
  destruct (malformed_contribution_skipped c "x" Undefined eq_refl)
    as (entry & Hturn & _ & Hsame).
  exists entry. split.
  - exact (proj1 (proj2 (Hturn (fresh ([] ++ c :: post)) []))).
  - exact (Hsame [] post (fresh ([] ++ c :: post)) (fresh ([] ++ post))
             eq_refl eq_refl eq_refl).
Defined.


(** ** Further properties of the loop *)

Section Further.

Context {World : Type}.
Implicit Types (contribution c : ServiceContribution World).
Implicit Types (contributions rest pre post more : list (ServiceContribution World)).
Implicit Types (st : state World) (w : World) (v e : value).
Implicit Types (serviceId : string) (params : value).
Implicit Types (own : gmap string (property World)).
Implicit Types (prototypes : list (gmap string (property World))).
Implicit Types (provider : DefaultServiceProvider World) (log : list value).

(** One turn, seen from outside: what it returns, the world it leaves and
    the lines it prints are decided by the contribution and the world; the
    provider is handed on, and the lines are put after those already
    printed. *)
Lemma iteration_shape c serviceId params w :
  ∃ r w' entries,
    length entries ≤ 1
    ∧ ∀ provider log,
        iteration c serviceId params (Build_state provider w log)
        = (r, Build_state provider w' (log ++ entries)).
Proof.
  destruct (malformed_or_produces c serviceId params w) as [Hm|(r & w1 & Hp)].
  - destruct (iteration_malformed_entry c Hm) as [entry Hit].
    exists None, w, [entry]. split; [done|]. intros provider log. by rewrite Hit.
  - destruct r as [v|e]; [destruct (ToBoolean v) eqn:Hv|].
    + exists (Some v), w1, []. split; [simpl; lia|]. intros provider log.
      rewrite (iteration_produce c serviceId params
                 (Build_state provider w log) _ _ Hp).
      cbv beta iota. rewrite Hv, app_nil_r. reflexivity.
    + exists None, w1, []. split; [simpl; lia|]. intros provider log.
      rewrite (iteration_produce c serviceId params
                 (Build_state provider w log) _ _ Hp).
      cbv beta iota. rewrite Hv, app_nil_r. reflexivity.
    + exists None, w1, [e]. split; [done|]. intros provider log.
      rewrite (iteration_produce c serviceId params
                 (Build_state provider w log) _ _ Hp).
      reflexivity.
Qed.

Lemma for_of_shape contributions serviceId params w :
  ∃ r w' entries,
    length entries ≤ length contributions
    ∧ ∀ provider log,
        for_of contributions serviceId params (Build_state provider w log)
        = (r, Build_state provider w' (log ++ entries)).
Proof.
  revert w. induction contributions as [|c rest IH]; intros w.
  - exists None, w, []. split; [done|]. intros provider log.
    by rewrite app_nil_r.
  - destruct (iteration_shape c serviceId params w)
      as (r1 & w1 & es1 & Hlen1 & H1).
    destruct r1 as [v|].
    + exists (Some v), w1, es1. split; [simpl; lia|]. intros provider log.
      simpl. by rewrite H1.
    + destruct (IH w1) as (r2 & w2 & es2 & Hlen2 & H2).
      exists r2, w2, (es1 ++ es2). split; [rewrite length_app; simpl; lia|].
      intros provider log. simpl. by rewrite H1, H2, app_assoc.
Qed.

(** X1. A call only adds to the console: what was printed before stays, in
    order, and at most one line is added per registered contribution. *)
Theorem getService_console_grows serviceId params st :
  ∃ entries,
    console (snd (getService serviceId params st)) = console st ++ entries
    ∧ length entries ≤ length (serviceContributions (this st)).
Proof.
  destruct st as [provider w log]. unfold getService. cbn [this].
  destruct (for_of_shape (serviceContributions provider) serviceId params w)
    as (r & w' & entries & Hlen & H).
  exists entries. rewrite H. split; [|done]. by destruct r.
Qed.

(** X2. When no registered contribution is malformed and none throws for
    the request, the call prints nothing, found or not. *)
Theorem getService_quiet serviceId params st :
  (∀ c, c ∈ serviceContributions (this st) →
        malformed c = false
        ∧ ∀ w e w', produce c serviceId params w ≠ Some (Throw e, w')) →
  console (snd (getService serviceId params st)) = console st.
Proof.
  intros Hgood.
  assert (∀ contributions st0,
            (∀ c, c ∈ contributions →
                  malformed c = false
                  ∧ ∀ w e w', produce c serviceId params w ≠ Some (Throw e, w')) →
            console (snd (for_of contributions serviceId params st0))
            = console st0) as Hwalk.
  { induction contributions as [|c rest IH]; intros st0 Hall; simpl; [done|].
    destruct (Hall c) as [Hm Hnothrow]; [by left|].
    destruct (malformed_or_produces c serviceId params (world st0))
      as [Hm'|(r & w1 & Hp)]; [congruence|].
    rewrite (iteration_produce _ _ _ _ _ _ Hp).
    destruct r as [v|e]; [|by destruct (Hnothrow _ _ _ Hp)].
    destruct (ToBoolean v); [done|].
    rewrite IH; [done|]. intros c' Hin. apply Hall. by right. }
  unfold getService. specialize (Hwalk _ st Hgood).
  by destruct (for_of _ _ _ st) as [[v|] st1].
Qed.

(** X3. Registering more contributions after the existing ones never
    changes a lookup that succeeds: same service, same world, same console;
    the added contributions are not consulted. *)
Theorem getService_append_stable contributions more serviceId params w log v st' :
  getService serviceId params
    (Build_state (new_DefaultServiceProvider contributions) w log)
  = (Normal v, st') →
  getService serviceId params
    (Build_state (new_DefaultServiceProvider (contributions ++ more)) w log)
  = (Normal v,
     Build_state (new_DefaultServiceProvider (contributions ++ more))
       (world st') (console st')).
Proof.
  unfold getService. cbn [this serviceContributions].
  destruct (for_of_shape contributions serviceId params w)
    as (r & w' & entries & _ & H).
  rewrite for_of_app, !H.
  destruct r as [v0|]; [|discriminate]. by intros [= -> <-].
Qed.

(** X4. A provider over [first ++ second] is the provider over [first]
    with the provider over [second] as its fallback: when the lookup over
    [first] fails, the lookup over both shows the caller what the lookup
    over [second] shows from the world and the console the first walk
    left. *)
Theorem getService_fallback (first second : list (ServiceContribution World))
    serviceId params w log e st' :
  getService serviceId params
    (Build_state (new_DefaultServiceProvider first) w log)
  = (Throw e, st') →
  let both :=
    getService serviceId params
      (Build_state (new_DefaultServiceProvider (first ++ second)) w log) in
  let fallback :=
    getService serviceId params
      (Build_state (new_DefaultServiceProvider second) (world st') (console st')) in
  fst both = fst fallback
  ∧ world (snd both) = world (snd fallback)
  ∧ console (snd both) = console (snd fallback).
Proof.
  unfold getService. cbn [this serviceContributions].
  destruct (for_of_shape first serviceId params w)
    as (r & w' & entries & _ & H).
  rewrite for_of_app, !H.
  destruct r as [v0|]; [discriminate|]. intros [= _ <-]. cbn [world console].
  destruct (for_of_shape second serviceId params w')
    as (r2 & w2 & entries2 & _ & H2).
  rewrite !H2. by destruct r2.
Qed.

(** X5. Registering a pure contribution twice in a row is the same to the
    caller as registering it once. *)
Theorem duplicate_registration_idempotent pre c post serviceId params w log log' :
  pure_contribution c →
  let twice :=
    getService serviceId params
      (Build_state (new_DefaultServiceProvider (pre ++ c :: c :: post)) w log) in
  let once :=
    getService serviceId params
      (Build_state (new_DefaultServiceProvider (pre ++ c :: post)) w log') in
  fst twice = fst once ∧ world (snd twice) = world (snd once).
Proof.
  intros Hpure. cbv zeta. unfold getService. cbn [this serviceContributions].
  rewrite !for_of_app.
  set (stA := Build_state (new_DefaultServiceProvider (pre ++ c :: c :: post)) w log).
  set (stB := Build_state (new_DefaultServiceProvider (pre ++ c :: post)) w log').
  destruct (for_of_world pre serviceId params stA stB eq_refl) as [Hr Hw].
  destruct (for_of pre _ _ stA) as [[v|] st1], (for_of pre _ _ stB) as [[v'|] st1'];
    simpl in Hr, Hw; try discriminate.
  { by injection Hr as ->. }
  cbn [for_of].
  destruct (iteration_world c serviceId params st1 st1' Hw) as [Hr1 Hw1].
  destruct (iteration_pure c serviceId params st1 st1 Hpure) as [Hsame _].
  destruct (iteration c serviceId params st1) as [[v|] st2] eqn:Hit,
           (iteration c serviceId params st1') as [[v'|] st2'];
    simpl in Hr1, Hw1, Hsame; try discriminate.
  { by injection Hr1 as ->. }
  destruct (iteration_pure c serviceId params st2 st1 Hpure) as [Hw2 Hr2].
  rewrite Hit in Hr2.
  destruct (iteration c serviceId params st2) as [[v|] st3];
    simpl in Hr2, Hw2; [discriminate|].
  assert (world st3 = world st2') as Hw3 by congruence.
  destruct (for_of_world post serviceId params st3 st2' Hw3) as [Hr3 Hw4].
  destruct (for_of post _ _ st3) as [[v|] st4], (for_of post _ _ st2') as [[v'|] st4'];
    simpl in *; try discriminate; [|done].
  by injection Hr3 as ->.
Qed.

Lemma iteration_answers c serviceId params st :
  fst (iteration c serviceId params st) = answers c serviceId params (world st).
Proof.
  unfold answers.
  destruct (malformed_or_produces c serviceId params (world st))
    as [Hm|(r & w1 & Hp)].
  - destruct (iteration_malformed c serviceId params st Hm) as [entry ->].
    by destruct c as [f|own prototypes|elements|p].
  - rewrite (iteration_produce _ _ _ _ _ _ Hp), Hp.
    destruct r as [v|e]; [by destruct (ToBoolean v)|done].
Qed.

(** With pure contributions the loop returns the first answer of the
    list. *)
Lemma for_of_pure_head contributions serviceId params st :
  Forall pure_contribution contributions →
  fst (for_of contributions serviceId params st)
  = head (omap (λ c, answers c serviceId params (world st)) contributions).
Proof.
  intros Hall. revert st. induction Hall as [|c rest Hc _ IH]; intros st; [done|].
  cbn [for_of omap list_omap].
  pose proof (iteration_answers c serviceId params st) as Ha.
  destruct (iteration_pure c serviceId params st st Hc) as [Hw _].
  destruct (iteration c serviceId params st) as [[v|] st1]; simpl in Ha, Hw.
  - by rewrite <- Ha.
  - rewrite <- Ha, IH. by rewrite Hw.
Qed.

Lemma getService_fst serviceId params st :
  fst (getService serviceId params st)
  = match fst (for_of (serviceContributions (this st)) serviceId params st) with
    | Some v => Normal v
    | None => Throw (ServiceNotFound serviceId)
    end.
Proof. unfold getService. by destruct (for_of _ _ _ st) as [[v|] st1]. Qed.

(** X6. The order of registration matters only between contributions that
    disagree: with pure contributions whose answers to the request, if any,
    are all the same value, every order of the list gives the caller the
    same outcome. *)
Theorem order_irrelevant_when_answers_agree
    contributions (reordered : list (ServiceContribution World))
    serviceId params w log log' :
  Forall pure_contribution contributions →
  contributions ≡ₚ reordered →
  (∀ c1 c2 v1 v2,
     c1 ∈ contributions → c2 ∈ contributions →
     answers c1 serviceId params w = Some v1 →
     answers c2 serviceId params w = Some v2 →
     v1 = v2) →
  fst (getService serviceId params
         (Build_state (new_DefaultServiceProvider contributions) w log))
  = fst (getService serviceId params
           (Build_state (new_DefaultServiceProvider reordered) w log')).
Proof.
  intros Hpure Hperm Hagree.
  assert (Forall pure_contribution reordered) as Hpure'.
  { by rewrite <- Hperm. }
  rewrite !getService_fst. cbn [this serviceContributions].
  rewrite !for_of_pure_head by done. cbn [world].
  set (f := λ c, answers c serviceId params w).
  assert (omap f contributions ≡ₚ omap f reordered) as Hp by by rewrite Hperm.
  assert (∀ x y, x ∈ omap f contributions → y ∈ omap f contributions → x = y)
    as Hall.
  { intros x y [c1 [Hc1 Hx]]%list_elem_of_omap [c2 [Hc2 Hy]]%list_elem_of_omap.
    exact (Hagree c1 c2 x y Hc1 Hc2 Hx Hy). }
  destruct (omap f contributions) as [|x xs], (omap f reordered) as [|y ys];
    cbn [head].
  - done.
  - by apply Permutation_nil_cons in Hp.
  - symmetry in Hp. by apply Permutation_nil_cons in Hp.
  - rewrite (Hall x y); [done|by left|]. rewrite Hp. by left.
Qed.

Lemma lookup_chain_None (chain : list (gmap string (property World))) key :
  lookup_chain chain key = None ↔ ∀ o, o ∈ chain → o !! key = None.
Proof.
  induction chain as [|o chain IH]; simpl.
  - split; [|done]. intros _ o Ho. by apply elem_of_nil in Ho.
  - destruct (o !! key) as [p|] eqn:Hk.
    + split; [done|]. intros Hall. specialize (Hall o (list_elem_of_here _ _)).
      congruence.
    + rewrite IH. split.
      * intros Hall o' [->|Hin]%elem_of_cons; auto.
      * intros Hall o' Hin. apply Hall. by right.
Qed.

(** X7. A record whose entry for the requested key is not callable: when
    the entry is [undefined] or [null] the record is passed over and the
    console stays as it is; any other value makes the call throw a
    [TypeError], which is added to the console, and the walk goes on. *)
Theorem record_entry_not_callable own prototypes serviceId params st v rest :
  own !! serviceId = Some (Data v) →
  (is_nullish v = true →
   for_of (ContributionRecord own prototypes :: rest) serviceId params st
   = for_of rest serviceId params st
   ∧ console (snd (iteration (ContributionRecord own prototypes)
                     serviceId params st))
     = console st)
  ∧ (is_nullish v = false →
     ∃ message,
       for_of (ContributionRecord own prototypes :: rest) serviceId params st
       = for_of rest serviceId params (console_error (TypeError message) st)
       ∧ console (snd (iteration (ContributionRecord own prototypes)
                         serviceId params st))
         = console st ++ [TypeError message]).
Proof.
  intros Hk. cbn [for_of]. unfold iteration. rewrite try_block_record.
  cbn [GetAndCall]. unfold Get. cbn [lookup_chain]. rewrite Hk.
  destruct st as [provider w log].
  split; intros Hn; rewrite Hn; [by split|]. eexists. by split.
Qed.

(** X8. A record that has the requested key neither among its own
    properties nor anywhere along its prototype chain (so every record
    without a prototype that lacks the key) is passed over in silence: the
    walk goes on in the same state. *)
Theorem record_without_key_skipped_silently
    own prototypes serviceId params st rest :
  (∀ o, o ∈ own :: prototypes → o !! serviceId = None) →
  iteration (ContributionRecord own prototypes) serviceId params st = (None, st)
  ∧ for_of (ContributionRecord own prototypes :: rest) serviceId params st
    = for_of rest serviceId params st.
Proof.
  intros Habsent%lookup_chain_None.
  assert (iteration (ContributionRecord own prototypes) serviceId params st
          = (None, st)) as Hit.
  { unfold iteration. rewrite try_block_record. cbn [GetAndCall]. unfold Get.
    rewrite Habsent. by destruct st. }
  split; [exact Hit|]. cbn [for_of]. by rewrite Hit.
Qed.

(** X9. Registering a factory under a service path in a record and asking
    for that path consults the factory exactly as if it were registered as
    a function, whatever the prototype chain holds; asking for any other
    path, the entry plays no part. *)
Theorem record_entry_answers_its_key own prototypes key m serviceId params st :
  iteration (ContributionRecord (<[servicePath key := Method m]> own) prototypes)
    (servicePath serviceId) params st
  = if decide (key = serviceId)
    then iteration (ContributionFunction (λ _, m)) (servicePath serviceId) params st
    else iteration (ContributionRecord own prototypes)
           (servicePath serviceId) params st.
Proof.
  unfold servicePath, iteration.
  rewrite !try_block_record, try_block_function.
  cbn [GetAndCall]. unfold Get. cbn [lookup_chain].
  destruct (decide (key = serviceId)) as [->|Hne].
  - by rewrite lookup_insert_eq.
  - by rewrite lookup_insert_ne.
Qed.

Lemma string_length_app (s1 s2 : string) :
  String.length (s1 +:+ s2) = String.length s1 + String.length s2.
Proof. induction s1 as [|a s1 IH]; simpl; [done|]. by rewrite IH. Qed.

Lemma string_app_inj_r (s1 s2 suffix : string) :
  s1 +:+ suffix = s2 +:+ suffix → s1 = s2.
Proof.
  revert s2. induction s1 as [|a s1 IH]; intros [|b s2] H; simpl in H.
  - done.
  - apply (f_equal String.length) in H.
    rewrite ?string_length_app in H. simpl in H.
    rewrite ?string_length_app in H. lia.
  - apply (f_equal String.length) in H.
    rewrite ?string_length_app in H. simpl in H.
    rewrite ?string_length_app in H. lia.
  - injection H as -> H. by rewrite (IH _ H).
Qed.

(** X10. The error of a failed lookup tells which service was asked for:
    two requests that fail with the same error asked for the same
    [serviceId]. *)
Theorem ServiceNotFound_names_serviceId serviceId1 serviceId2 params1 params2
    (st1 st2 : state World) :
  fst (getService serviceId1 params1 st1) = fst (getService serviceId2 params2 st2) →
  (∃ e, fst (getService serviceId1 params1 st1) = Throw e) →
  serviceId1 = serviceId2.
Proof.
  rewrite !getService_fst. intros Heq [e He].
  destruct (fst (for_of _ serviceId1 params1 st1)) as [v1|]; [discriminate|].
  destruct (fst (for_of _ serviceId2 params2 st2)) as [v2|]; [discriminate|].
  injection Heq as Heq.
  apply (string_app_inj_r _ _ dquote). exact Heq.
Qed.

(** X11. What a malformed contribution puts on the console: an array or a
    primitive other than [null] adds the line [unexpected contribution
    type:] followed by its [typeof]; [null] does not, it adds the
    [TypeError] of the property read that failed.  In both cases the turn
    returns nothing and the world is untouched. *)
Theorem malformed_console_entry c serviceId params st :
  malformed c = true →
  (c ≠ ContributionPrimitive Null →
   iteration c serviceId params st
   = (None,
      console_error
        (String_ ("unexpected contribution type: " +:+ typeof c)) st)
   ∧ console (snd (iteration c serviceId params st))
     = console st
       ++ [Prim (String_ ("unexpected contribution type: " +:+ typeof c))]
   ∧ world (snd (iteration c serviceId params st)) = world st)
  ∧ (c = ContributionPrimitive Null →
     ∃ message,
       iteration c serviceId params st
       = (None, console_error (TypeError message) st)
       ∧ console (snd (iteration c serviceId params st))
         = console st ++ [TypeError message]
       ∧ world (snd (iteration c serviceId params st)) = world st).
Proof.
  destruct c as [f|own prototypes|elements|p]; simpl; try discriminate; intros _.
  - split; [by intros _|discriminate].
  - destruct p; (split; [intros Hne|intros Heq]);
      first [by repeat split | discriminate Heq | by destruct Hne
            | eexists; destruct st; by repeat split].
Qed.

Lemma none_produces_after_turn c rest serviceId params st st1 w' :
  iteration c serviceId params st = (None, st1) →
  none_produces serviceId params rest (world st1) w' →
  none_produces serviceId params (c :: rest) (world st) w'.
Proof.
  intros Hit Hrest.
  destruct (malformed_or_produces c serviceId params (world st))
    as [Hm|(r & w1 & Hp)].
  - destruct (iteration_malformed c serviceId params st Hm) as [entry He].
    rewrite He in Hit. injection Hit as <-.
    by apply none_produces_malformed.
  - rewrite (iteration_produce _ _ _ _ _ _ Hp) in Hit.
    destruct r as [v|e].
    + destruct (ToBoolean v) eqn:Hv; [discriminate|]. injection Hit as <-.
      by eapply none_produces_empty.
    + injection Hit as <-. by eapply none_produces_throws.
Qed.

(** A walk that returns [v]: the list splits around the contribution that
    produced it. *)
Lemma for_of_Some_first_answer contributions serviceId params st v st' :
  for_of contributions serviceId params st = (Some v, st') →
  ∃ pre c post w1,
    contributions = pre ++ c :: post
    ∧ none_produces serviceId params pre (world st) w1
    ∧ produce c serviceId params w1 = Some (Normal v, world st')
    ∧ ToBoolean v = true.
Proof.
  revert st st'. induction contributions as [|c rest IH]; intros st st'; simpl;
    [discriminate|].
  destruct (iteration c serviceId params st) as [[v1|] st1] eqn:Hit.
  - intros [= -> ->]. exists [], c, rest, (world st).
    split; [done|]. split; [constructor|].
    destruct (malformed_or_produces c serviceId params (world st))
      as [Hm|(r & w1 & Hp)].
    + destruct (iteration_malformed c serviceId params st Hm) as [entry He].
      congruence.
    + rewrite (iteration_produce _ _ _ _ _ _ Hp) in Hit.
      destruct r as [v1|e]; [|discriminate].
      destruct (ToBoolean v1) eqn:Hv; [|discriminate].
      injection Hit as -> <-. done.
  - intros Hrest.
    destruct (IH _ _ Hrest) as (pre & c' & post & w1 & -> & Hn & Hp & Hv).
    exists (c :: pre), c', post, w1. split; [done|]. split; [|done].
    by eapply none_produces_after_turn.
Qed.

(** X12. Whatever [getService] returns was answered by a registered
    contribution, the first one to answer: the list splits around a
    contribution that produced that very value, with none before it
    producing a service. *)
Theorem getService_returns_first_answer serviceId params st v :
  fst (getService serviceId params st) = Normal v →
  ∃ pre c post w1 w2,
    serviceContributions (this st) = pre ++ c :: post
    ∧ none_produces serviceId params pre (world st) w1
    ∧ produce c serviceId params w1 = Some (Normal v, w2)
    ∧ ToBoolean v = true
    ∧ world (snd (getService serviceId params st)) = w2.
Proof.
  unfold getService.
  destruct (for_of (serviceContributions (this st)) serviceId params st)
    as [[v0|] st'] eqn:Hfor; simpl; [|discriminate].
  intros [= ->].
  destruct (for_of_Some_first_answer _ _ _ _ _ _ Hfor)
    as (pre & c & post & w1 & Hl & Hn & Hp & Hv).
  by exists pre, c, post, w1, (world st').
Qed.

(** X13. A provider bound through a filter registry dispatches over what
    [applyFilters] returned and nothing else: a service it returns was
    answered by a contribution the filter kept, and when the filter keeps
    nothing every lookup fails, the gathered contributions being neither
    used as a fallback nor consulted. *)
Theorem bound_provider_respects_filter (registry : applyFilters World)
    contributions (filtered : list (ServiceContribution World))
    serviceId params w log :
  registry contributions = Some filtered →
  let st :=
    Build_state (bindServiceProvider_toDynamicValue (Some registry) contributions)
      w log in
  (∀ v, fst (getService serviceId params st) = Normal v →
        ∃ c w', c ∈ filtered ∧ answers c serviceId params w' = Some v)
  ∧ (filtered = [] →
     getService serviceId params st = (Throw (ServiceNotFound serviceId), st)).
Proof.
  intros Hf st. subst st. unfold bindServiceProvider_toDynamicValue. rewrite Hf.
  split.
  - intros v. unfold getService. cbn [this serviceContributions].
    destruct (for_of filtered serviceId params _) as [[v0|] st'] eqn:Hfor;
      simpl; [|discriminate].
    intros [= ->].
    destruct (for_of_Some_first_answer _ _ _ _ _ _ Hfor)
      as (pre & c & post & w1 & Hl & _ & Hp & Htrue).
    exists c, w1. split; [rewrite Hl; set_solver|].
    unfold answers. by rewrite Hp, Htrue.
  - intros ->. reflexivity.
Qed.

Lemma answers_pure c serviceId params w w0 :
  pure_contribution c →
  answers c serviceId params w0 = answers c serviceId params w.
Proof.
  intros Hpure. unfold answers.
  destruct (malformed_or_produces c serviceId params w) as [Hm|(r & w1 & Hp)].
  - by destruct c as [f|own prototypes|elements|p].
  - destruct (Hpure _ _ _ _ _ Hp) as [-> Hany]. by rewrite Hp, (Hany w0).
Qed.

(** X14. A pure contribution that does not answer the request can be taken
    out of the list, wherever it stands, without the caller noticing. *)
Theorem silent_pure_contribution_removable pre c post serviceId params w log log' :
  pure_contribution c →
  answers c serviceId params w = None →
  let with_it :=
    getService serviceId params
      (Build_state (new_DefaultServiceProvider (pre ++ c :: post)) w log) in
  let without :=
    getService serviceId params
      (Build_state (new_DefaultServiceProvider (pre ++ post)) w log') in
  fst with_it = fst without ∧ world (snd with_it) = world (snd without).
Proof.
  intros Hpure Hnone. cbv zeta. unfold getService. cbn [this serviceContributions].
  rewrite !for_of_app.
  set (stA := Build_state (new_DefaultServiceProvider (pre ++ c :: post)) w log).
  set (stB := Build_state (new_DefaultServiceProvider (pre ++ post)) w log').
  destruct (for_of_world pre serviceId params stA stB eq_refl) as [Hr Hw].
  destruct (for_of pre _ _ stA) as [[v|] st1], (for_of pre _ _ stB) as [[v'|] st1'];
    simpl in Hr, Hw; try discriminate.
  { by injection Hr as ->. }
  cbn [for_of].
  pose proof (iteration_answers c serviceId params st1) as Ha.
  rewrite (answers_pure c serviceId params w (world st1) Hpure), Hnone in Ha.
  destruct (iteration_pure c serviceId params st1 st1 Hpure) as [Hsame _].
  destruct (iteration c serviceId params st1) as [[v|] st2];
    simpl in Ha, Hsame; [discriminate|].
  assert (world st2 = world st1') as Hw2 by congruence.
  destruct (for_of_world post serviceId params st2 st1' Hw2) as [Hr3 Hw3].
  destruct (for_of post _ _ st2) as [[v|] st3], (for_of post _ _ st1') as [[v'|] st3'];
    simpl in *; try discriminate; [|done].
  by injection Hr3 as ->.
Qed.

End Further.

(** ** The further properties at work *)

Lemma getService_quiet_witness :
  let st := fresh [ContributionFunction (returning Undefined);
                   object_literal foo_services] in
  (∀ c, c ∈ serviceContributions (this st) →
        malformed c = false
        ∧ ∀ w e w', produce c "/services/foo" Undefined w ≠ Some (Throw e, w'))
  ∧ console (snd (getService "/services/foo" Undefined st)) = console st.
Proof.
  intros st.
  assert (∀ c, c ∈ serviceContributions (this st) →
               malformed c = false
               ∧ ∀ w e w',
                   produce c "/services/foo" Undefined w ≠ Some (Throw e, w'))
    as Hgood.
  { intros c Hin. cbn in Hin.
    apply elem_of_cons in Hin as [->|Hin];
      [|apply elem_of_cons in Hin as [->|Hin]; [|by apply elem_of_nil in Hin]].
    - split; [reflexivity|]. intros w e w' H. discriminate H.
    - split; [reflexivity|]. intros w e w' H. vm_compute in H. discriminate H. }
  split; [exact Hgood|].
  exact (getService_quiet "/services/foo" Undefined st Hgood).
Defined.

Lemma getService_append_stable_witness :
  let contributions := [ContributionFunction (returning (Object 7))] in
  let more := [ContributionFunction (throwing (Error "Error" "late"))] in
  getService "x" Undefined
    (Build_state (new_DefaultServiceProvider contributions) 0 [])
  = (Normal (Object 7),
     Build_state (new_DefaultServiceProvider contributions) 1 [])
  ∧ getService "x" Undefined
      (Build_state (new_DefaultServiceProvider (contributions ++ more)) 0 [])
    = (Normal (Object 7),
       Build_state (new_DefaultServiceProvider (contributions ++ more)) 1 []).
Proof.
  intros contributions more. split; [reflexivity|].
  exact (getService_append_stable contributions more "x" Undefined 0 []
           (Object 7)
           (Build_state (new_DefaultServiceProvider contributions) 1 [])
           eq_refl).
Defined.

Lemma getService_fallback_witness :
  let first : list (ServiceContribution nat) := [ContributionPrimitive Undefined] in
  let second := [ContributionFunction (returning (Object 7))] in
  let printed := [Prim (String_ "unexpected contribution type: undefined")] in
  getService "x" Undefined (Build_state (new_DefaultServiceProvider first) 0 [])
  = (Throw (ServiceNotFound "x"),
     Build_state (new_DefaultServiceProvider first) 0 printed)
  ∧ fst (getService "x" Undefined
           (Build_state (new_DefaultServiceProvider (first ++ second)) 0 []))
    = fst (getService "x" Undefined
             (Build_state (new_DefaultServiceProvider second) 0 printed)).
Proof.
  intros first second printed. split; [reflexivity|].
  exact (proj1 (getService_fallback first second "x" Undefined 0 []
                  (ServiceNotFound "x")
                  (Build_state (new_DefaultServiceProvider first) 0 printed)
                  eq_refl)).
Defined.

Lemma constant_pure v : pure_contribution (ContributionFunction (constant v)).
Proof.
  intros serviceId params w r w' H. injection H as <- <-.
  split; [reflexivity|]. intros w0. reflexivity.
Defined.

Lemma duplicate_registration_idempotent_witness :
  let c := ContributionFunction (constant Undefined) in
  let post := [ContributionFunction (returning (Object 1))] in
  pure_contribution c
  ∧ fst (getService "x" Undefined
           (Build_state (new_DefaultServiceProvider ([] ++ c :: c :: post)) 0 []))
    = fst (getService "x" Undefined
             (Build_state (new_DefaultServiceProvider ([] ++ c :: post)) 0 [])).
Proof.
  intros c post. split; [exact (constant_pure Undefined)|].
  exact (proj1 (duplicate_registration_idempotent [] c post "x" Undefined 0 [] []
                  (constant_pure Undefined))).
Defined.

Lemma order_irrelevant_when_answers_agree_witness :
  let silent := ContributionFunction (constant Undefined) in
  let answering := ContributionFunction (constant (Object 7)) in
  Forall pure_contribution [silent; answering]
  ∧ [silent; answering] ≡ₚ [answering; silent]
  ∧ (∀ c1 c2 v1 v2,
       c1 ∈ [silent; answering] → c2 ∈ [silent; answering] →
       answers c1 "x" Undefined 0 = Some v1 →
       answers c2 "x" Undefined 0 = Some v2 →
       v1 = v2)
  ∧ fst (getService "x" Undefined
           (Build_state (new_DefaultServiceProvider [silent; answering]) 0 []))
    = fst (getService "x" Undefined
             (Build_state (new_DefaultServiceProvider [answering; silent]) 0 [])).
Proof.
  intros silent answering.
  assert (Forall pure_contribution [silent; answering]) as Hpure.
  { constructor; [apply constant_pure|].
    constructor; [apply constant_pure|constructor]. }
  assert ([silent; answering] ≡ₚ [answering; silent]) as Hperm.
  { apply perm_swap. }
  assert (∀ c1 c2 v1 v2,
            c1 ∈ [silent; answering] → c2 ∈ [silent; answering] →
            answers c1 "x" Undefined 0 = Some v1 →
            answers c2 "x" Undefined 0 = Some v2 →
            v1 = v2) as Hagree.
  { intros c1 c2 v1 v2 H1 H2.
    apply elem_of_cons in H1 as [->|H1]; [intros H; discriminate H|].
    apply elem_of_cons in H1 as [->|H1]; [|by apply elem_of_nil in H1].
    apply elem_of_cons in H2 as [->|H2]; [intros _ H; discriminate H|].
    apply elem_of_cons in H2 as [->|H2]; [|by apply elem_of_nil in H2].
    intros Ha Hb. injection Ha as <-. injection Hb as <-. reflexivity. }
  do 3 (split; [first [exact Hpure | exact Hperm | exact Hagree]|]).
  exact (order_irrelevant_when_answers_agree [silent; answering]
           [answering; silent] "x" Undefined 0 [] [] Hpure Hperm Hagree).
Defined.

Lemma record_entry_not_callable_witness :
  let own : gmap string (property nat) := {[ "x" := Data (String_ "oops") ]} in
  let rest := [ContributionFunction (returning (Object 7))] in
  own !! "x" = Some (Data (Prim (String_ "oops")))
  ∧ is_nullish (String_ "oops") = false
  ∧ ∃ message,
      for_of (ContributionRecord own [Object_prototype] :: rest) "x" Undefined
        (fresh [])
      = for_of rest "x" Undefined (console_error (TypeError message) (fresh []))
      ∧ console (snd (iteration (ContributionRecord own [Object_prototype])
                        "x" Undefined (fresh [])))
        = console (fresh []) ++ [TypeError message].
Proof.
  intros own rest.
  assert (own !! "x" = Some (Data (Prim (String_ "oops")))) as Hk by reflexivity.
  do 2 (split; [reflexivity|]).
  exact (proj2 (record_entry_not_callable own [Object_prototype] "x" Undefined
                  (fresh []) (String_ "oops") rest Hk) eq_refl).
Defined.

Lemma record_without_key_skipped_silently_witness :
  let rest := [ContributionFunction (returning (Object 7))] in
  (∀ o, o ∈ foo_services :: [] → o !! "toString" = None)
  ∧ for_of (ContributionRecord foo_services [] :: rest) "toString" Undefined
      (fresh [])
    = for_of rest "toString" Undefined (fresh []).
Proof.
  intros rest.
  assert (∀ o, o ∈ foo_services :: [] → o !! "toString" = None) as Habsent.
  { intros o Hin.
    apply elem_of_cons in Hin as [->|Hin]; [reflexivity|].
    by apply elem_of_nil in Hin. }
  split; [exact Habsent|].
  exact (proj2 (record_without_key_skipped_silently foo_services [] "toString"
                  Undefined (fresh []) rest Habsent)).
Defined.

Lemma ServiceNotFound_names_serviceId_witness :
  let st1 := fresh [ContributionFunction (returning Undefined)] in
  let st2 := fresh [ContributionPrimitive Null] in
  fst (getService "missing" Undefined st1) = fst (getService "missing" Null st2)
  ∧ (∃ e, fst (getService "missing" Undefined st1) = Throw e)
  ∧ "missing" = "missing".
Proof.
  intros st1 st2.
  assert (∃ e, fst (getService "missing" Undefined st1) = Throw e) as Hfail.
  { eexists. reflexivity. }
  split; [reflexivity|]. split; [exact Hfail|].
  exact (ServiceNotFound_names_serviceId "missing" "missing" Undefined Null
           st1 st2 eq_refl Hfail).
Defined.

Lemma malformed_console_entry_witness :
  let c : ServiceContribution nat := ContributionPrimitive (Number S754_nan) in
  malformed c = true
  ∧ c ≠ ContributionPrimitive Null
  ∧ console (snd (iteration c "x" Undefined (fresh [c])))
    = console (fresh [c])
      ++ [Prim (String_ "unexpected contribution type: number")].
Proof.
  intros c.
  assert (c ≠ ContributionPrimitive Null) as Hne by discriminate.
  split; [reflexivity|]. split; [exact Hne|].
  exact (proj1 (proj2 (proj1 (malformed_console_entry c "x" Undefined (fresh [c])
                                eq_refl) Hne))).
Defined.

Lemma getService_returns_first_answer_witness :
  let st := fresh [object_literal {[ "x" := method_returning Undefined ]};
                   ContributionFunction (returning (String_ "service-default"))] in
  fst (getService "x" Undefined st) = Normal (String_ "service-default")
  ∧ ∃ pre c post w1 w2,
      serviceContributions (this st) = pre ++ c :: post
      ∧ none_produces "x" Undefined pre (world st) w1
      ∧ produce c "x" Undefined w1 = Some (Normal (String_ "service-default"), w2)
      ∧ ToBoolean (String_ "service-default") = true
      ∧ world (snd (getService "x" Undefined st)) = w2.
Proof.
  intros st. split; [reflexivity|].
  exact (getService_returns_first_answer "x" Undefined st
           (String_ "service-default") eq_refl).
Defined.

Lemma bound_provider_respects_filter_witness :
  let kept := ContributionFunction (returning (Object 1)) in
  let dropped := ContributionFunction (returning (Object 2)) in
  let registry : applyFilters nat := λ gathered, Some (drop 1 gathered) in
  let st :=
    Build_state (bindServiceProvider_toDynamicValue (Some registry) [dropped; kept])
      0 [] in
  registry [dropped; kept] = Some [kept]
  ∧ (∀ v, fst (getService "x" Undefined st) = Normal v →
          ∃ c w', c ∈ [kept] ∧ answers c "x" Undefined w' = Some v).
Proof.
  intros kept dropped registry st. split; [reflexivity|].
  exact (proj1 (bound_provider_respects_filter registry [dropped; kept] [kept]
                  "x" Undefined 0 [] eq_refl)).
Defined.

Lemma silent_pure_contribution_removable_witness :
  let c := ContributionFunction (constant (Prim (String_ ""))) in
  let pre := [ContributionFunction (throwing (Error "Error" "broken"))] in
  let post := [ContributionFunction (returning (Object 7))] in
  pure_contribution c
  ∧ answers c "x" Undefined 0 = None
  ∧ fst (getService "x" Undefined
           (Build_state (new_DefaultServiceProvider (pre ++ c :: post)) 0 []))
    = fst (getService "x" Undefined
             (Build_state (new_DefaultServiceProvider (pre ++ post)) 0 [])).
Proof.
  intros c pre post.
  split; [exact (constant_pure (String_ ""))|]. split; [reflexivity|].
  exact (proj1 (silent_pure_contribution_removable pre c post "x" Undefined 0 [] []
                  (constant_pure (String_ "")) eq_refl)).
Defined.

(** ** The provider and the array it shares *)

Section LiveArray.

Context {W : Type}.
Implicit Types (objects : nat → ServiceContribution (shared W)).
Implicit Types (contribution c : ServiceContribution (shared W)).
Implicit Types (st : state (shared W)).
Implicit Types (serviceId : string) (params : value).

Lemma iteration_keeps_array c serviceId params st :
  keeps_array c →
  fst (world (snd (iteration c serviceId params st))) = fst (world st).
Proof.
  intros Hkeeps.
  destruct (malformed_or_produces c serviceId params (world st))
    as [Hm|(r & sw & Hp)].
  - destruct (iteration_malformed c serviceId params st Hm) as [entry ->]. done.
  - rewrite (iteration_produce _ _ _ _ _ _ Hp).
    pose proof (Hkeeps _ _ _ _ _ Hp) as Hsame.
    destruct r as [v|e]; [by destruct (ToBoolean v)|done].
Qed.

Lemma for_of_keeps_array (contributions : list (ServiceContribution (shared W)))
    serviceId params st :
  Forall keeps_array contributions →
  fst (world (snd (for_of contributions serviceId params st))) = fst (world st).
Proof.
  intros Hall. revert st. induction Hall as [|c rest Hc _ IH]; intros st; simpl;
    [done|].
  pose proof (iteration_keeps_array c serviceId params st Hc) as Hturn.
  destruct (iteration c serviceId params st) as [[v|] st1]; simpl in Hturn;
    [done|].
  by rewrite IH.
Qed.

(** When no contribution in the array writes to it, the loop on the live
    array is the loop on the list the array held at the start, and it
    ends: one step more than the array is long is fuel enough. *)
Lemma for_of_live_fixed objects fuel index serviceId params st :
  (∀ reference, reference ∈ fst (world st) → keeps_array (objects reference)) →
  length (fst (world st)) - index < fuel →
  for_of_live objects fuel index serviceId params st
  = Some (for_of (map objects (drop index (fst (world st)))) serviceId params st).
Proof.
  revert index st. induction fuel as [|fuel IH]; intros index st Hkeep Hfuel;
    [lia|].
  cbn [for_of_live].
  destruct (fst (world st) !! index) as [reference|] eqn:Hlook.
  - rewrite (drop_S _ _ _ Hlook). cbn [map for_of].
    assert (keeps_array (objects reference)) as Hc.
    { apply Hkeep. by eapply list_elem_of_lookup_2. }
    pose proof (iteration_keeps_array _ serviceId params st Hc) as Hsame.
    apply lookup_lt_Some in Hlook.
    destruct (iteration (objects reference) serviceId params st)
      as [[v|] st1]; simpl in Hsame; [done|].
    rewrite IH; rewrite Hsame; [done..|lia].
  - apply lookup_ge_None in Hlook. by rewrite drop_ge.
Qed.


End LiveArray.


Lemma steady_objects_pure reference : pure_contribution (steady_objects reference).
Proof.
  destruct reference as [|reference]; intros serviceId params sw r sw' H;
    [discriminate H|].
  injection H as <- <-. split; [reflexivity|]. intros sw0. reflexivity.
Defined.

Lemma steady_objects_keep reference : keeps_array (steady_objects reference).
Proof.
  intros serviceId params sw sw' r H.
  destruct (steady_objects_pure reference serviceId params sw r sw' H) as [Hsame _].
  by rewrite Hsame.
Defined.

